(** * Ambassador IR: the base Mapping resource

    A shallow embedding of [ambassador/ir/irbasemapping.py]
    (class [IRBaseMapping]) and of the routing-resolution components the
    specification builds around it, with the properties the specification
    states about them.

    Python objects are mutable and shared: a Mapping keeps a reference to
    the IR ([self.ir]) and both are updated in place.  The embedding threads
    one [world] (the Mapping and the IR it points to) through every method;
    an exception leaves the updates made before it in place, as in Python. *)

From Stdlib Require Import ZArith String Ascii List Lia Permutation Sorted.
From stdpp Require Import base option list gmap strings pretty.

Local Open Scope Z_scope.
Local Open Scope string_scope.

(** ** Python values and exceptions *)

(** The values a resource stores under the keys read here.  A [str] is a
    [string], one [ascii] per code point. *)
Inductive value :=
| VNone
| VStr (s : string)
| VList (l : list string).

Inductive exn :=
| NotImplementedError (msg : string)
| TypeError (msg : string).

Inductive result (A : Type) :=
| Ok (a : A)
| Raise (e : exn).
Arguments Ok {A} a.
Arguments Raise {A} e.

(** [bool(v)]: [None], the empty string and the empty list are falsy. *)
Definition truthy (v : value) : bool :=
  match v with
  | VNone => false
  | VStr s => negb (String.eqb s "")
  | VList l => negb (Nat.eqb (List.length l) 0)
  end.

(** [a or b] *)
Definition py_or (a b : value) : value := if truthy a then a else b.

(** [iter(v)]: a list yields its elements, a string its characters, and
    [None] is not iterable. *)
Definition py_iter (v : value) : result (list value) :=
  match v with
  | VNone => Raise (TypeError "'NoneType' object is not iterable")
  | VStr s => Ok (map (fun c => VStr (String c EmptyString)) (list_ascii_of_string s))
  | VList l => Ok (map VStr l)
  end.

(** [v == host] for a [str] host: only an equal string is equal. *)
Definition py_eq_str (v : value) (host : string) : bool :=
  match v with
  | VStr s => String.eqb s host
  | _ => false
  end.

(** [d.get(k)]: the stored value, [None] for a missing key. *)
Definition dict_get (d : gmap string value) (k : string) : value :=
  match d !! k with
  | Some v => v
  | None => VNone
  end.

(** ** Resources *)

(** A TLS context is a dictionary-like resource. *)
Abbreviation TLSContext := (gmap string value).

(** The attributes a Mapping is declared with: the parameters of
    [__init__], the annotated [host], and the two routing attributes of the
    specification's data model that arrive through [**kwargs]. *)
Record Declared := {
  rkey : string;
  name : string;
  location : string;
  kind : string;
  apiVersion : string;
  precedence : Z;
  host : string;
  prefix : string;
  weight : option Z
}.

(** An element of a route weight, [Union[str, int]]. *)
Inductive weight_elt :=
| WStr (s : string)
| WInt (n : Z).

(** [IRBaseMapping]: the declared attributes and the three attributes the
    methods assign; an attribute never assigned is [None] here. *)
Record IRBaseMapping := {
  attrs : Declared;
  group_id : option string;
  route_weight : option (list weight_elt);
  sni : option bool
}.

Definition set_group_id (g : string) (m : IRBaseMapping) : IRBaseMapping :=
  {| attrs := attrs m; group_id := Some g; route_weight := route_weight m; sni := sni m |}.

Definition set_route_weight (w : list weight_elt) (m : IRBaseMapping) : IRBaseMapping :=
  {| attrs := attrs m; group_id := group_id m; route_weight := Some w; sni := sni m |}.

Definition set_sni (b : bool) (m : IRBaseMapping) : IRBaseMapping :=
  {| attrs := attrs m; group_id := group_id m; route_weight := route_weight m; sni := Some b |}.

(** What the logger receives: the level, the format string and its
    arguments, unformatted. *)
Inductive log_arg :=
| ArgMapping (m : IRBaseMapping)
| ArgStr (s : string)
| ArgValue (v : value)
| ArgWeight (w : list weight_elt).

Inductive log_level := DEBUG | INFO.

Record log_record := {
  level : log_level;
  fmt : string;
  args : list log_arg
}.

(** The part of the IR the Mapping touches: its TLS contexts, in the order
    [get_tls_contexts] yields them, and its logger. *)
Record IR := {
  tls_contexts : list TLSContext;
  logger : list log_record
}.

Definition get_tls_contexts (i : IR) : list TLSContext := tls_contexts i.

Record world := {
  self : IRBaseMapping;
  ir : IR
}.

(** ** State and exceptions *)

Definition M (A : Type) : Type := world -> result A * world.

Definition ret {A} (a : A) : M A := fun w => (Ok a, w).

Definition raise {A} (e : exn) : M A := fun w => (Raise e, w).

Definition bind {A B} (m : M A) (k : A -> M B) : M B :=
  fun w =>
    match m w with
    | (Ok a, w') => k a w'
    | (Raise e, w') => (Raise e, w')
    end.

Definition lift {A} (r : result A) : M A := fun w => (r, w).

Definition update_self (f : IRBaseMapping -> IRBaseMapping) : M unit :=
  fun w => (Ok tt, {| self := f (self w); ir := ir w |}).

Definition get_self : M IRBaseMapping := fun w => (Ok (self w), w).

Definition log (l : log_level) (f : string) (a : list log_arg) : M unit :=
  fun w => (Ok tt,
            {| self := self w;
               ir := {| tls_contexts := tls_contexts (ir w);
                        logger := logger (ir w) ++ [{| level := l; fmt := f; args := a |}] |} |}).

Declare Scope py_scope.
Delimit Scope py_scope with py.
Notation "x ← y ; z" := (bind y (fun x => z))
  (at level 20, y at level 100, z at level 200, only parsing) : py_scope.
Notation "y ;; z" := (bind y (fun _ => z))
  (at level 100, z at level 200, only parsing, right associativity) : py_scope.
Local Open Scope py_scope.

(** ** Classes of Mappings *)

(** A class of Mappings: its name and the two methods a subclass must
    define.  [None] is a method the class inherits from [IRBaseMapping]. *)
Record MappingClass := {
  class_name : string;
  group_id_impl : option (IRBaseMapping -> string);
  route_weight_impl : option (IRBaseMapping -> list weight_elt)
}.

Definition IRBaseMapping_class : MappingClass :=
  {| class_name := "IRBaseMapping"; group_id_impl := None; route_weight_impl := None |}.

(** [self._group_id()] *)
Definition _group_id (C : MappingClass) : M string :=
  m ← get_self ;
  match group_id_impl C with
  | Some f => ret (f m)
  | None => raise (NotImplementedError (class_name C ++ "._group_id is not implemented?"))
  end.

(** [self._route_weight()] *)
Definition _route_weight (C : MappingClass) : M (list weight_elt) :=
  m ← get_self ;
  match route_weight_impl C with
  | Some f => ret (f m)
  | None => raise (NotImplementedError (class_name C ++ "._route_weight is not implemented?"))
  end.

(** [IRBaseMapping.setup] *)
Definition setup (C : MappingClass) : M bool :=
  g ← _group_id C ;
  update_self (set_group_id g) ;;
  r ← _route_weight C ;
  update_self (set_route_weight r) ;;
  m ← get_self ;
  log DEBUG "%s: GID %s route_weight %s" [ArgMapping m; ArgStr g; ArgWeight r] ;;
  ret true.

(** ** TLS context matching *)

(** The inner loop of [match_tls_context] over the hosts of one context:
    [Some context] when the loop returns from the method. *)
Fixpoint match_hosts (host : string) (context : TLSContext) (hosts : list value)
  : M (option TLSContext) :=
  match hosts with
  | [] => ret None
  | context_host :: rest =>
      if py_eq_str context_host host then
        log INFO "Matched host {} with TLSContext {}"
            [ArgStr host; ArgValue (dict_get context "name")] ;;
        update_self (set_sni true) ;;
        ret (Some context)
      else match_hosts host context rest
  end.

(** The outer loop over the contexts. *)
Fixpoint match_contexts (host : string) (contexts : list TLSContext)
  : M (option TLSContext) :=
  match contexts with
  | [] => ret None
  | context :: rest =>
      hosts ← lift (py_iter (py_or (dict_get context "hosts") (VList []))) ;
      found ← match_hosts host context hosts ;
      match found with
      | Some c => ret (Some c)
      | None => match_contexts host rest
      end
  end.

(** [IRBaseMapping.match_tls_context] *)
Definition match_tls_context (host : string) : M (option TLSContext) :=
  fun w => match_contexts host (get_tls_contexts (ir w)) w.

(** The hosts a context serves, as the scan reads them: the elements of a
    list, the characters of a bare string, nothing when the entry is
    missing or [None]. *)
Definition context_hosts (c : TLSContext) : list string :=
  match c !! "hosts" with
  | Some (VList l) => l
  | Some (VStr s) => map (fun a => String a EmptyString) (list_ascii_of_string s)
  | Some VNone | None => []
  end.

Definition serves (host : string) (c : TLSContext) : bool :=
  bool_decide (host ∈ context_hosts c).

(** The world after a match on [c]: one log record more, [sni] set. *)
Definition matched (host : string) (c : TLSContext) (w : world) : world :=
  {| self := set_sni true (self w);
     ir := {| tls_contexts := tls_contexts (ir w);
              logger := logger (ir w) ++
                [{| level := INFO; fmt := "Matched host {} with TLSContext {}";
                    args := [ArgStr host; ArgValue (dict_get c "name")] |}] |} |}.

(** ** The route-resolution components of the specification *)

(** Modelled from the spec: the GroupKeyResolver of section 4.1, which is
    not part of [irbasemapping.py].  The key is composed from the kind, the
    host (or a sentinel for any host) and the prefix; the separator and the
    sentinel are not fixed by the specification. *)
Definition resolveGroupKey (m : IRBaseMapping) : string :=
  kind (attrs m) ++ "|" ++
  (if String.eqb (host (attrs m)) "" then "*" else host (attrs m)) ++ "|" ++
  prefix (attrs m).

(** Modelled from the spec: the RouteWeightCalculator of section 4.2, which
    is not part of [irbasemapping.py].  The ordered tuple is the explicit
    precedence, the path specificity (the length of the prefix) and the
    resource key as tie-breaker. *)
Definition specificity (m : IRBaseMapping) : Z :=
  Z.of_nat (String.length (prefix (attrs m))).

Definition routeWeight (m : IRBaseMapping) : Z * Z * string :=
  (precedence (attrs m), specificity m, rkey (attrs m)).

Definition routeWeight_list (m : IRBaseMapping) : list weight_elt :=
  [WInt (precedence (attrs m)); WInt (specificity m); WStr (rkey (attrs m))].

(** Modelled from the spec: a Mapping kind implementing both capabilities
    of sections 4.1 and 4.2; the subclasses of [IRBaseMapping] are not part
    of the sources. *)
Definition SpecMapping_class : MappingClass :=
  {| class_name := "IRMapping";
     group_id_impl := Some resolveGroupKey;
     route_weight_impl := Some routeWeight_list |}.

(** Modelled from the spec: the order of section 4.2 on route weights.
    Higher precedence first, then the longer prefix, then the
    lexicographically smaller resource key. *)
Definition weight_leb (x y : Z * Z * string) : bool :=
  let '(p1, s1, k1) := x in
  let '(p2, s2, k2) := y in
  (p2 <? p1)%Z || ((p1 =? p2)%Z && ((s2 <? s1)%Z || ((s1 =? s2)%Z && String.leb k1 k2))).

Definition sorts_before (a b : IRBaseMapping) : bool :=
  weight_leb (routeWeight a) (routeWeight b).

(** Modelled from the spec: step 3 of section 4.5, a stable sort of the
    members by route weight. *)
Fixpoint insert_member (a : IRBaseMapping) (l : list IRBaseMapping) : list IRBaseMapping :=
  match l with
  | [] => [a]
  | b :: rest => if sorts_before a b then a :: b :: rest else b :: insert_member a rest
  end.

Fixpoint order_members (l : list IRBaseMapping) : list IRBaseMapping :=
  match l with
  | [] => []
  | a :: rest => insert_member a (order_members rest)
  end.

Inductive warning := CanaryOvercommit.

(** Modelled from the spec: the RouteGroup of section 3.  [groupId] is the
    [group_id] its members carry. *)
Record RouteGroup := {
  groupId : option string;
  members : list IRBaseMapping;
  totalWeight : option Z;
  warnings : list warning
}.

(** Modelled from the spec: step 2 of section 4.5, partitioning by group
    key.  Groups appear in the order their first member does, members in
    input order. *)
Fixpoint add_to_groups (m : IRBaseMapping) (gs : list RouteGroup) : list RouteGroup :=
  match gs with
  | [] => [{| groupId := group_id m; members := [m]; totalWeight := None; warnings := [] |}]
  | g :: rest =>
      if decide (groupId g = group_id m) then
        {| groupId := groupId g; members := members g ++ [m];
           totalWeight := totalWeight g; warnings := warnings g |} :: rest
      else g :: add_to_groups m rest
  end.

Definition group_mappings (ms : list IRBaseMapping) : list RouteGroup :=
  fold_left (fun gs m => add_to_groups m gs) ms [].

(** Modelled from the spec: steps 1 and 2 of section 4.5.  Every Mapping of
    the pass is set up against the shared IR; the first failure aborts the
    pass. *)
Fixpoint setup_each (C : MappingClass) (ms : list IRBaseMapping) (i : IR)
  : result (list IRBaseMapping) * IR :=
  match ms with
  | [] => (Ok [], i)
  | m :: rest =>
      match setup C {| self := m; ir := i |} with
      | (Ok _, w) =>
          match setup_each C rest (ir w) with
          | (Ok ms', i') => (Ok (self w :: ms'), i')
          | (Raise e, i') => (Raise e, i')
          end
      | (Raise e, w) => (Raise e, ir w)
      end
  end.

Definition collect_and_group (C : MappingClass) (ms : list IRBaseMapping) (i : IR)
  : result (list RouteGroup) * IR :=
  match setup_each C ms i with
  | (Ok ms', i') => (Ok (group_mappings ms'), i')
  | (Raise e, i') => (Raise e, i')
  end.

Definition order_group (g : RouteGroup) : RouteGroup :=
  {| groupId := groupId g; members := order_members (members g);
     totalWeight := totalWeight g; warnings := warnings g |}.

(** Modelled from the spec: the CanaryWeightBalancer of section 4.3, which
    is not part of the sources.  Which kinds support weighted canary
    routing, and the rounding of the proportional rescaling of a fully
    declared group, are left open by the specification (section 9); both
    are parameters. *)
Section CanaryWeightBalancer.

Variable supports_canary : string -> bool.
Variable rescale : list Z -> list Z.

Definition clamp (w : Z) : Z := Z.max 0 (Z.min 100 w).

Definition total (ws : list Z) : Z := fold_right Z.add 0 ws.

(** The share of the [i]-th of [n] members in an even split of [t]: the
    quotient, and one unit of the remainder for each of the earliest
    members. *)
Definition even_share (t : Z) (n i : nat) : Z :=
  t / Z.of_nat n + (if (Z.of_nat i <? t mod Z.of_nat n)%Z then 1 else 0).

Definition even_split (t : Z) (n : nat) : list Z :=
  map (even_share t n) (seq 0 n).

(** Declared weights are kept, clamped; each undeclared member takes the
    next share, and 0 when none is left. *)
Fixpoint fill (shares : list Z) (ws : list (option Z)) : list Z :=
  match ws with
  | [] => []
  | Some w :: rest => clamp w :: fill shares rest
  | None :: rest =>
      match shares with
      | s :: shares' => s :: fill shares' rest
      | [] => 0 :: fill [] rest
      end
  end.

Fixpoint declared_total (ws : list (option Z)) : Z :=
  match ws with
  | [] => 0
  | Some w :: rest => clamp w + declared_total rest
  | None :: rest => declared_total rest
  end.

Fixpoint undeclared (ws : list (option Z)) : nat :=
  match ws with
  | [] => O
  | Some _ :: rest => undeclared rest
  | None :: rest => S (undeclared rest)
  end.

Fixpoint declared (ws : list (option Z)) : list Z :=
  match ws with
  | [] => []
  | Some w :: rest => w :: declared rest
  | None :: rest => declared rest
  end.

Definition balance_weights (ws : list (option Z)) : list Z * list warning :=
  if Nat.eqb (undeclared ws) 0 then
    if (total (declared ws) =? 100)%Z then (declared ws, [])
    else (rescale (declared ws),
          if (100 <? total (declared ws))%Z then [CanaryOvercommit] else [])
  else if (100 <=? declared_total ws)%Z then (fill [] ws, [CanaryOvercommit])
  else (fill (even_split (100 - declared_total ws) (undeclared ws)) ws, []).

Definition set_weight (z : Z) (m : IRBaseMapping) : IRBaseMapping :=
  {| attrs := {| rkey := rkey (attrs m); name := name (attrs m);
                 location := location (attrs m); kind := kind (attrs m);
                 apiVersion := apiVersion (attrs m);
                 precedence := precedence (attrs m); host := host (attrs m);
                 prefix := prefix (attrs m); weight := Some z |};
     group_id := group_id m; route_weight := route_weight m; sni := sni m |}.

Definition member_weights (g : RouteGroup) : list (option Z) :=
  map (fun m => weight (attrs m)) (members g).

Definition eligible (g : RouteGroup) : bool :=
  forallb (fun m => supports_canary (kind (attrs m))) (members g).

(** [balance(group) -> group'] *)
Definition balance (g : RouteGroup) : RouteGroup :=
  if eligible g then
    let '(ws, warns) := balance_weights (member_weights g) in
    {| groupId := groupId g;
       members := zip_with set_weight ws (members g);
       totalWeight := Some (total ws);
       warnings := warnings g ++ warns |}
  else g.

End CanaryWeightBalancer.


(** A group is well formed when it has a member and every member carries
    the group's id. *)
Definition well_grouped (g : RouteGroup) : Prop :=
  members g <> [] /\ Forall (fun m => group_id m = groupId g) (members g).

(** A derivation that reads nothing but the declared attributes. *)
Definition declared_only {A} (f : IRBaseMapping -> A) : Prop :=
  forall m m', attrs m = attrs m' -> f m = f m'.

(** Concrete resources used in the examples below. *)
Definition example_attrs (k p : string) (z : Z) : Declared :=
  {| rkey := k; name := k; location := "mappings.yaml"; kind := "Mapping";
     apiVersion := "ambassador/v1"; precedence := z; host := "x.com";
     prefix := p; weight := None |}.

Definition example_mapping (k p : string) (z : Z) : IRBaseMapping :=
  {| attrs := example_attrs k p z; group_id := None; route_weight := None; sni := None |}.

Definition context_A : TLSContext :=
  <["name" := VStr "A"]> (<["hosts" := VList ["x.com"]]> ∅).

Definition context_B : TLSContext :=
  <["name" := VStr "B"]> (<["hosts" := VList ["x.com"]]> ∅).

Definition context_hostless : TLSContext := <["name" := VStr "N"]> ∅.

Definition example_world (cs : list TLSContext) : world :=
  {| self := example_mapping "m1" "/foo/" 0;
     ir := {| tls_contexts := cs; logger := [] |} |}.

(** The same declared Mapping met in another state: a stale [group_id], [sni]
    already set, another IR. *)
Definition stale_world : world :=
  {| self := set_sni true (set_group_id "stale" (example_mapping "m1" "/foo/" 0));
     ir := {| tls_contexts := [context_A];
              logger := [{| level := INFO; fmt := "earlier"; args := [] |}] |} |}.

Definition example_inputs : list IRBaseMapping :=
  [example_mapping "m1" "/foo/" 0; example_mapping "m2" "/bar/" 0;
   example_mapping "m3" "/foo/" 0].

Definition example_group (ws : list (option Z)) : RouteGroup :=
  {| groupId := Some "Mapping|x.com|/foo/";
     members := zip_with (fun k w =>
                   {| attrs := {| rkey := k; name := k; location := "mappings.yaml";
                                  kind := "Mapping"; apiVersion := "ambassador/v1";
                                  precedence := 0; host := "x.com"; prefix := "/foo/";
                                  weight := w |};
                      group_id := Some "Mapping|x.com|/foo/";
                      route_weight := Some [WInt 0; WInt 5; WStr k]; sni := None |})
                 ["a"; "b"; "c"; "d"] ws;
     totalWeight := None; warnings := [] |}.

Definition example_ir : IR := {| tls_contexts := [context_A]; logger := [] |}.

Definition example_groups : list RouteGroup :=
  match fst (collect_and_group SpecMapping_class example_inputs example_ir) with
  | Ok gs => gs
  | Raise _ => []
  end.

(** A route-weight derivation that reads the declared attributes and the
    [group_id] that [setup] has just assigned, and nothing else. *)
Definition attrs_and_group_id_only {A} (g : IRBaseMapping -> A) : Prop :=
  forall m m', attrs m = attrs m' -> group_id m = group_id m' -> g m = g m'.

(** A class whose route weight starts with the group id. *)
Definition GroupWeighted_class : MappingClass :=
  {| class_name := "GroupWeighted";
     group_id_impl := Some resolveGroupKey;
     route_weight_impl :=
       Some (fun m => [WStr (match group_id m with Some g => g | None => "" end);
                       WInt (precedence (attrs m))]) |}.

(** Modelled from the spec: the proportional rescaling of a fully declared
    group in section 4.3.  Each weight becomes its share of 100, rounded to
    the nearest integer; a nonzero weight that would round to 0 keeps a
    minimum of 1; the largest weight takes what is then left to 100.  The
    specification does not say how halves are rounded (here upwards) nor
    which of several largest weights is trimmed (here the earliest).
    Weights that sum to 0 have no ratios to keep and are left as they are. *)
Definition round_share (s w : Z) : Z := (200 * w + s) / (2 * s).

Definition reserve (s w : Z) : Z :=
  if negb (w =? 0)%Z && (round_share s w =? 0)%Z then 1 else round_share s w.

Definition largest (l : list Z) : Z := fold_right Z.max 0 l.

Fixpoint trim_largest (m excess : Z) (l : list Z) : list Z :=
  match l with
  | [] => []
  | x :: rest =>
      if (x =? m)%Z then (x - excess) :: rest else x :: trim_largest m excess rest
  end.

Definition proportional_rescale (ws : list Z) : list Z :=
  if (total ws =? 0)%Z then ws
  else trim_largest (largest (map (reserve (total ws)) ws))
         (total (map (reserve (total ws)) ws) - 100)
         (map (reserve (total ws)) ws).



(** ** The test harness: [tests/abstract_tests.py] *)

Module AbstractTests.

(** [AmbassadorTest]: the attributes its methods read and assign.
    [name_k8s] and [path_fqdn] stand for [self.name.k8s] and
    [self.path.fqdn] of the harness's [Name]; [skip_node] holds what the
    superclass left there. *)
Record AmbassadorTest := {
  _index : option Z;
  _ambassador_id : option string;
  single_namespace : bool;
  disable_endpoints : bool;
  skip_in_dev : bool;
  debug_diagd : bool;
  envs : gmap string string;
  _environ : gmap string string;
  skip_node : bool;
  name_k8s : string;
  path_fqdn : string
}.

Definition set_index (i : Z) (t : AmbassadorTest) : AmbassadorTest :=
  {| _index := Some i; _ambassador_id := _ambassador_id t;
     single_namespace := single_namespace t; disable_endpoints := disable_endpoints t;
     skip_in_dev := skip_in_dev t; debug_diagd := debug_diagd t; envs := envs t;
     _environ := _environ t; skip_node := skip_node t; name_k8s := name_k8s t;
     path_fqdn := path_fqdn t |}.

Definition set_ambassador_id (v : string) (t : AmbassadorTest) : AmbassadorTest :=
  {| _index := _index t; _ambassador_id := Some v;
     single_namespace := single_namespace t; disable_endpoints := disable_endpoints t;
     skip_in_dev := skip_in_dev t; debug_diagd := debug_diagd t; envs := envs t;
     _environ := _environ t; skip_node := skip_node t; name_k8s := name_k8s t;
     path_fqdn := path_fqdn t |}.

Definition set_environ (e : gmap string string) (t : AmbassadorTest) : AmbassadorTest :=
  {| _index := _index t; _ambassador_id := _ambassador_id t;
     single_namespace := single_namespace t; disable_endpoints := disable_endpoints t;
     skip_in_dev := skip_in_dev t; debug_diagd := debug_diagd t; envs := envs t;
     _environ := e; skip_node := skip_node t; name_k8s := name_k8s t;
     path_fqdn := path_fqdn t |}.

Definition set_skip_node (b : bool) (t : AmbassadorTest) : AmbassadorTest :=
  {| _index := _index t; _ambassador_id := _ambassador_id t;
     single_namespace := single_namespace t; disable_endpoints := disable_endpoints t;
     skip_in_dev := skip_in_dev t; debug_diagd := debug_diagd t; envs := envs t;
     _environ := _environ t; skip_node := b; name_k8s := name_k8s t;
     path_fqdn := path_fqdn t |}.

(** [AmbassadorTest.__init__], after the superclass has initialised the
    object.  [DEV] is the module constant read from the environment. *)
Definition __init__ (DEV : bool) (t : AmbassadorTest) : AmbassadorTest :=
  let t0 := set_environ (envs t) t in
  let t1 := if single_namespace t0
            then set_environ (<["AMBASSADOR_SINGLE_NAMESPACE" := "yes"]> (_environ t0)) t0
            else t0 in
  let t2 := if disable_endpoints t1
            then set_environ (<["AMBASSADOR_DISABLE_ENDPOINTS" := "yes"]> (_environ t1)) t1
            else t1 in
  let t3 := if debug_diagd t2
            then set_environ (<["AMBASSADOR_DEBUG" := "diagd"]> (_environ t2)) t2
            else t2 in
  if skip_in_dev t3 && DEV then set_skip_node true t3 else t3.

(** The [ambassador_id] property and its setter. *)
Definition ambassador_id (t : AmbassadorTest) : string :=
  match _ambassador_id t with
  | None => name_k8s t
  | Some v => v
  end.

(** The [index] property.  [OFFSET] is the class attribute
    [AmbassadorTest.OFFSET], shared by all tests. *)
Definition index (t : AmbassadorTest) (OFFSET : Z) : Z * AmbassadorTest * Z :=
  match _index t with
  | None => (OFFSET, set_index OFFSET t, OFFSET + 1)
  | Some i => (i, t, OFFSET)
  end.

Definition scheme (t : AmbassadorTest) : string := "http".

(** The truth value of an optional integer: [None] and [0] are falsy. *)
Definition port_given (port : option Z) : bool :=
  match port with
  | Some p => negb (p =? 0)%Z
  | None => false
  end.

Definition port_value (port : option Z) : Z :=
  match port with
  | Some p => p
  | None => 0
  end.

(** ["%s://%s/%s" % (a, b, c)] *)
Definition format_url (a b c : string) : string := a ++ "://" ++ b ++ "/" ++ c.

(** The port [url] picks in a dev shell when none is given: the base port
    of the scheme plus [self.index]. *)
Definition dev_port (sch : string) (t : AmbassadorTest) (OFFSET : Z)
  : Z * AmbassadorTest * Z :=
  let port := if String.eqb sch "https" then 8443 else 8080 in
  let '(i, t', O') := index t OFFSET in
  (port + i, t', O').

(** [AmbassadorTest.url] *)
Definition url (DEV : bool) (prefix : string) (sch : option string) (port : option Z)
    (t : AmbassadorTest) (OFFSET : Z) : string * AmbassadorTest * Z :=
  let sch := match sch with None => scheme t | Some s => s end in
  if DEV then
    let '(p, t', O') :=
      if negb (port_given port) then dev_port sch t OFFSET
      else (port_value port, t, OFFSET) in
    (format_url sch ("localhost:" ++ pretty p) prefix, t', O')
  else
    let host_and_port :=
      if port_given port then path_fqdn t ++ ":" ++ pretty (port_value port)
      else path_fqdn t in
    (format_url sch host_and_port prefix, t, OFFSET).

(** The arguments a [Query] of the harness is built with: the URL, and the
    headers when they are passed. *)
Record Query := {
  q_url : string;
  q_headers : option (list (string * string))
}.

(** [AmbassadorTest.requirements], run to its end. *)
Definition requirements (DEV : bool) (t : AmbassadorTest) (OFFSET : Z)
  : list (string * Query) * AmbassadorTest * Z :=
  let '(u1, t1, O1) := url DEV "ambassador/v0/check_ready" None None t OFFSET in
  let '(u2, t2, O2) := url DEV "ambassador/v0/check_alive" None None t1 O1 in
  ([("url", {| q_url := u1; q_headers := None |});
    ("url", {| q_url := u2; q_headers := None |})], t2, O2).

(** Every index handed out so far lies below the class counter. *)
Definition allocated_below (OFFSET : Z) (t : AmbassadorTest) : Prop :=
  forall i, _index t = Some i -> i < OFFSET.

Definition example_test : AmbassadorTest :=
  {| _index := None; _ambassador_id := None; single_namespace := true;
     disable_endpoints := false; skip_in_dev := false; debug_diagd := false;
     envs := <["AMBASSADOR_SINGLE_NAMESPACE" := "no"]> (<["FOO" := "bar"]> ∅);
     _environ := ∅; skip_node := false; name_k8s := "plain";
     path_fqdn := "plain.default" |}.

End AbstractTests.

(** * Properties *)

(** ** TLS context matching *)

Lemma py_iter_hosts (c : TLSContext) :
  py_iter (py_or (dict_get c "hosts") (VList [])) = Ok (map VStr (context_hosts c)).
Proof.
  unfold dict_get, context_hosts, py_or.
  destruct (c !! "hosts") as [[ | s | l]|]; simpl; try reflexivity.
  - destruct s; simpl; [reflexivity|]. by rewrite List.map_map.
  - destruct l; reflexivity.
Qed.

Lemma match_hosts_spec host (c : TLSContext) (l : list string) w :
  match_hosts host c (map VStr l) w =
  if bool_decide (host ∈ l) then (Ok (Some c), matched host c w) else (Ok None, w).
Proof.
  induction l as [|h l IH]; simpl.
  - reflexivity.
  - destruct (String.eqb_spec h host) as [->|Hne].
    + rewrite bool_decide_eq_true_2 by constructor. reflexivity.
    + rewrite IH. destruct (decide (host ∈ l)) as [Hin|Hnin].
      * rewrite !bool_decide_eq_true_2; [reflexivity | by constructor | done].
      * rewrite !bool_decide_eq_false_2; [reflexivity | | done].
        intros Hc. apply elem_of_cons in Hc as [->|]; done.
Qed.

Lemma match_contexts_spec host (cs : list TLSContext) w :
  match_contexts host cs w =
  match List.find (serves host) cs with
  | Some c => (Ok (Some c), matched host c w)
  | None => (Ok None, w)
  end.
Proof.
  induction cs as [|c cs IH]; simpl.
  - reflexivity.
  - unfold bind at 1, lift. rewrite py_iter_hosts.
    unfold bind. rewrite match_hosts_spec. unfold serves at 1.
    destruct (bool_decide (host ∈ context_hosts c)); [reflexivity | apply IH].
Qed.

Lemma find_first_match {A} (p : A -> bool) pre c post :
  p c = true -> (forall x, x ∈ pre -> p x = false) ->
  List.find p (pre ++ c :: post) = Some c.
Proof.
  intros Hc Hpre. induction pre as [|x pre IH]; simpl.
  - by rewrite Hc.
  - rewrite (Hpre x) by constructor. apply IH. intros y Hy. apply Hpre. by constructor.
Qed.

Lemma find_no_match {A} (p : A -> bool) l :
  (forall x, x ∈ l -> p x = false) -> List.find p l = None.
Proof.
  intros H. induction l as [|x l IH]; simpl; [done|].
  rewrite (H x) by constructor. apply IH. intros y Hy. apply H. by constructor.
Qed.

Lemma find_skip {A} (p : A -> bool) pre c post :
  p c = false -> List.find p (pre ++ c :: post) = List.find p (pre ++ post).
Proof.
  intros Hc. induction pre as [|x pre IH]; simpl.
  - by rewrite Hc.
  - by rewrite IH.
Qed.

Lemma find_holds {A} (p : A -> bool) l c : List.find p l = Some c -> p c = true.
Proof. intros H. by apply List.find_some in H as [_ ?]. Qed.

(** C1. For every host and every sequence of TLS contexts,
    [match_tls_context] returns the first context, in the order of the
    sequence, whose hosts contain a string equal to the host: when no
    context before [c] serves the host and [c] does, the result is [c]. *)
Theorem match_tls_context_first_match host (pre post : list TLSContext) c w :
  get_tls_contexts (ir w) = (pre ++ c :: post)%list ->
  host ∈ context_hosts c ->
  (forall c', c' ∈ pre -> host ∉ context_hosts c') ->
  match_tls_context host w = (Ok (Some c), matched host c w).
Proof.
  intros Hcs Hc Hpre. unfold match_tls_context.
  rewrite match_contexts_spec, Hcs, (find_first_match _ pre c post); [done| |].
  - by apply bool_decide_eq_true_2.
  - intros x Hx. apply bool_decide_eq_false_2. by apply Hpre.
Qed.

(** Contexts [A:{x.com}; B:{x.com}] and host [x.com] yield context [A]. *)
Lemma match_tls_context_first_match_witness :
  match_tls_context "x.com" (example_world [context_A; context_B])
  = (Ok (Some context_A), matched "x.com" context_A (example_world [context_A; context_B])).
Proof.
  apply (match_tls_context_first_match "x.com" [] [context_B] context_A).
  - reflexivity.
  - vm_compute. constructor.
  - intros c' H. inversion H.
Defined.

(** C2. When no context of the sequence has the host among its hosts,
    [match_tls_context] returns [None] without raising, and leaves the
    Mapping as it was: [sni] is not set. *)
Theorem match_tls_context_no_match host w :
  (forall c, c ∈ get_tls_contexts (ir w) -> host ∉ context_hosts c) ->
  match_tls_context host w = (Ok None, w) /\
  sni (self (snd (match_tls_context host w))) = sni (self w).
Proof.
  intros H.
  assert (E : match_tls_context host w = (Ok None, w)).
  { unfold match_tls_context. rewrite match_contexts_spec, find_no_match; [done|].
    intros c Hc. apply bool_decide_eq_false_2. by apply H. }
  by rewrite E.
Qed.

Lemma match_tls_context_no_match_witness :
  match_tls_context "y.com" (example_world [context_A; context_hostless])
  = (Ok None, example_world [context_A; context_hostless]) /\
  sni (self (snd (match_tls_context "y.com" (example_world [context_A; context_hostless]))))
  = None.
Proof.
  apply (match_tls_context_no_match "y.com" (example_world [context_A; context_hostless])).
  intros c Hc. apply list_elem_of_In in Hc. simpl in Hc.
  destruct Hc as [<-|[<-|[]]];
    apply (bool_decide_eq_false_1 (_ ∈ _)); vm_compute; reflexivity.
Defined.

(** C10. A context whose [hosts] entry is missing or [None] is read as
    having no hosts: the lookup yields the empty list without raising, the
    scan goes on as if the context were not in the sequence, the context is
    never the result, and the method raises nothing. *)
Theorem match_tls_context_skips_hostless host (pre post : list TLSContext) c w :
  c !! "hosts" = None \/ c !! "hosts" = Some VNone ->
  get_tls_contexts (ir w) = (pre ++ c :: post)%list ->
  py_iter (py_or (dict_get c "hosts") (VList [])) = Ok [] /\
  match_tls_context host w = match_contexts host (pre ++ post) w /\
  fst (match_tls_context host w) <> Ok (Some c) /\
  (forall e, fst (match_tls_context host w) <> Raise e).
Proof.
  intros Hc Hcs.
  assert (Hh : context_hosts c = []).
  { unfold context_hosts. by destruct Hc as [-> | ->]. }
  assert (Hs : serves host c = false).
  { unfold serves. rewrite Hh. apply bool_decide_eq_false_2. by intros ?%elem_of_nil. }
  split; [|split; [|split]].
  - by rewrite py_iter_hosts, Hh.
  - unfold match_tls_context. by rewrite !match_contexts_spec, Hcs, find_skip.
  - unfold match_tls_context. rewrite match_contexts_spec.
    destruct (List.find _ _) as [c'|] eqn:E; simpl; [|done].
    intros [= ->]. apply find_holds in E. congruence.
  - intros e. unfold match_tls_context. rewrite match_contexts_spec.
    by destruct (List.find _ _).
Qed.

Lemma match_tls_context_skips_hostless_witness :
  py_iter (py_or (dict_get context_hostless "hosts") (VList [])) = Ok [] /\
  match_tls_context "x.com" (example_world [context_hostless; context_B])
  = match_contexts "x.com" [context_B] (example_world [context_hostless; context_B]) /\
  fst (match_tls_context "x.com" (example_world [context_hostless; context_B]))
  <> Ok (Some context_hostless) /\
  (forall e, fst (match_tls_context "x.com" (example_world [context_hostless; context_B]))
             <> Raise e).
Proof.
  apply (match_tls_context_skips_hostless "x.com" [] [context_B] context_hostless
           (example_world [context_hostless; context_B])).
  - left. vm_compute. reflexivity.
  - reflexivity.
Defined.

(** ** Setup *)

Lemma setup_run C w :
  setup C w =
  match group_id_impl C with
  | None => (Raise (NotImplementedError (class_name C ++ "._group_id is not implemented?")), w)
  | Some f =>
      let w1 := {| self := set_group_id (f (self w)) (self w); ir := ir w |} in
      match route_weight_impl C with
      | None =>
          (Raise (NotImplementedError (class_name C ++ "._route_weight is not implemented?")), w1)
      | Some g =>
          let m2 := set_route_weight (g (self w1)) (self w1) in
          (Ok true,
           {| self := m2;
              ir := {| tls_contexts := tls_contexts (ir w);
                       logger := logger (ir w) ++
                         [{| level := DEBUG; fmt := "%s: GID %s route_weight %s";
                             args := [ArgMapping m2; ArgStr (f (self w));
                                      ArgWeight (g (self w1))] |}] |} |})
      end
  end.
Proof.
  unfold setup, _group_id, _route_weight, bind, get_self, update_self, log, ret, raise.
  destruct (group_id_impl C) as [f|]; [|reflexivity].
  destruct (route_weight_impl C) as [g|]; reflexivity.
Qed.

(** C3. When the class of a Mapping does not define the group-key
    derivation or the route-weight derivation, [setup] raises
    [NotImplementedError]: it returns no value, logs nothing and never
    assigns [route_weight].  A missing [_group_id] leaves the Mapping
    untouched; a missing [_route_weight] is reached after [group_id] has
    been assigned. *)
Theorem setup_missing_capability C w :
  group_id_impl C = None \/ route_weight_impl C = None ->
  (exists msg, fst (setup C w) = Raise (NotImplementedError msg)) /\
  ir (snd (setup C w)) = ir w /\
  route_weight (self (snd (setup C w))) = route_weight (self w) /\
  (group_id_impl C = None ->
   setup C w =
   (Raise (NotImplementedError (class_name C ++ "._group_id is not implemented?")), w)) /\
  (forall f, group_id_impl C = Some f ->
   setup C w =
   (Raise (NotImplementedError (class_name C ++ "._route_weight is not implemented?")),
    {| self := set_group_id (f (self w)) (self w); ir := ir w |})).
Proof.
  intros H. rewrite setup_run.
  destruct (group_id_impl C) as [f|] eqn:Ef.
  - destruct H as [H|H]; [discriminate|]. rewrite H. simpl.
    repeat split; eauto; try discriminate. by intros f' [= <-].
  - simpl. repeat split; eauto. intros f'; discriminate.
Qed.

Lemma setup_missing_capability_witness :
  (exists msg, fst (setup IRBaseMapping_class (example_world [])) =
               Raise (NotImplementedError msg)) /\
  ir (snd (setup IRBaseMapping_class (example_world []))) = ir (example_world []) /\
  route_weight (self (snd (setup IRBaseMapping_class (example_world [])))) =
  route_weight (self (example_world [])) /\
  (group_id_impl IRBaseMapping_class = None ->
   setup IRBaseMapping_class (example_world []) =
   (Raise (NotImplementedError
             (class_name IRBaseMapping_class ++ "._group_id is not implemented?")),
    example_world [])) /\
  (forall f, group_id_impl IRBaseMapping_class = Some f ->
   setup IRBaseMapping_class (example_world []) =
   (Raise (NotImplementedError
             (class_name IRBaseMapping_class ++ "._route_weight is not implemented?")),
    {| self := set_group_id (f (self (example_world []))) (self (example_world []));
       ir := ir (example_world []) |})).
Proof.
  apply (setup_missing_capability IRBaseMapping_class (example_world [])).
  left. reflexivity.
Defined.

Lemma resolveGroupKey_declared_only : declared_only resolveGroupKey.
Proof. intros m m' H. unfold resolveGroupKey. by rewrite H. Qed.

Lemma routeWeight_list_declared_only : declared_only routeWeight_list.
Proof. intros m m' H. unfold routeWeight_list, specificity. by rewrite H. Qed.

Lemma setup_ok C f g w :
  group_id_impl C = Some f -> route_weight_impl C = Some g ->
  fst (setup C w) = Ok true /\
  attrs (self (snd (setup C w))) = attrs (self w) /\
  group_id (self (snd (setup C w))) = Some (f (self w)) /\
  route_weight (self (snd (setup C w))) = Some (g (set_group_id (f (self w)) (self w))) /\
  sni (self (snd (setup C w))) = sni (self w) /\
  tls_contexts (ir (snd (setup C w))) = tls_contexts (ir w).
Proof. intros Hf Hg. rewrite setup_run, Hf, Hg. simpl. repeat split. Qed.




Lemma setup_keeps_attrs C w : attrs (self (snd (setup C w))) = attrs (self w).
Proof.
  rewrite setup_run.
  destruct (group_id_impl C); [|reflexivity].
  destruct (route_weight_impl C); reflexivity.
Qed.

Lemma match_tls_context_run host w :
  match_tls_context host w =
  match List.find (serves host) (get_tls_contexts (ir w)) with
  | Some c => (Ok (Some c), matched host c w)
  | None => (Ok None, w)
  end.
Proof. unfold match_tls_context. apply match_contexts_spec. Qed.

(** C5, as stated, fails: a Mapping that has been set up is written again by
    [match_tls_context], which assigns [sni] when a context matches. *)
Lemma mapping_read_only_after_setup_counterexample :
  ~ (forall C host w,
       fst (setup C w) = Ok true ->
       self (snd (match_tls_context host (snd (setup C w)))) = self (snd (setup C w))).
Proof.
  intros H.
  specialize (H SpecMapping_class "x.com" (example_world [context_A; context_B]) eq_refl).
  apply (f_equal sni) in H. vm_compute in H. discriminate H.
Qed.

(** C5, amended. After [setup], [match_tls_context] changes neither the
    declared attributes nor [group_id] nor [route_weight] of the Mapping.
    The one field it writes is [sni], set to [True] exactly when a context
    matches; when none does the Mapping is left as it was. *)
Theorem match_tls_context_writes_only_sni C host w :
  attrs (self (snd (match_tls_context host (snd (setup C w))))) = attrs (self w) /\
  group_id (self (snd (match_tls_context host (snd (setup C w))))) =
  group_id (self (snd (setup C w))) /\
  route_weight (self (snd (match_tls_context host (snd (setup C w))))) =
  route_weight (self (snd (setup C w))) /\
  ((exists c, fst (match_tls_context host (snd (setup C w))) = Ok (Some c) /\
              self (snd (match_tls_context host (snd (setup C w)))) =
              set_sni true (self (snd (setup C w)))) \/
   (fst (match_tls_context host (snd (setup C w))) = Ok None /\
    self (snd (match_tls_context host (snd (setup C w)))) = self (snd (setup C w)))).
Proof.
  rewrite <- (setup_keeps_attrs C w). generalize (snd (setup C w)). intros w1.
  rewrite match_tls_context_run.
  destruct (List.find _ _) as [c|]; simpl; repeat split; eauto.
Qed.

(** ** The order on route weights *)

Lemma string_compare_refl s : String.compare s s = Eq.
Proof.
  induction s as [|a s IH]; simpl; [reflexivity|].
  unfold Ascii.compare. by rewrite N.compare_refl.
Qed.

Lemma string_compare_not_gt_trans a b c :
  String.compare a b <> Gt -> String.compare b c <> Gt -> String.compare a c <> Gt.
Proof.
  revert b c. induction a as [|x a IH]; intros [|y b] [|z c]; simpl; try congruence.
  unfold Ascii.compare.
  destruct (N.compare_spec (N_of_ascii x) (N_of_ascii y)) as [Exy|Lxy|Gxy];
    destruct (N.compare_spec (N_of_ascii y) (N_of_ascii z)) as [Eyz|Lyz|Gyz];
    try congruence; intros Hab Hbc.
  - rewrite Exy, Eyz, N.compare_refl. by apply (IH b c).
  - rewrite (proj2 (N.compare_lt_iff _ _)) by lia. discriminate.
  - rewrite (proj2 (N.compare_lt_iff _ _)) by lia. discriminate.
  - rewrite (proj2 (N.compare_lt_iff _ _)) by lia. discriminate.
Qed.

Lemma string_leb_refl s : String.leb s s = true.
Proof. unfold String.leb. by rewrite string_compare_refl. Qed.

Lemma string_leb_trans a b c :
  String.leb a b = true -> String.leb b c = true -> String.leb a c = true.
Proof.
  unfold String.leb. intros Hab Hbc.
  pose proof (string_compare_not_gt_trans a b c) as H.
  destruct (String.compare a b), (String.compare b c), (String.compare a c);
    try reflexivity; try discriminate; exfalso; apply H; congruence.
Qed.

Lemma string_ltb_not_leb a b : String.ltb a b = true -> String.leb b a = false.
Proof.
  unfold String.ltb, String.leb. rewrite (String.compare_antisym a b).
  by destruct (String.compare b a).
Qed.

Lemma weight_leb_total x y : weight_leb x y = true \/ weight_leb y x = true.
Proof.
  destruct x as [[p1 s1] k1], y as [[p2 s2] k2]. unfold weight_leb.
  destruct (Z.ltb_spec p2 p1), (Z.ltb_spec p1 p2), (Z.eqb_spec p1 p2), (Z.eqb_spec p2 p1);
    simpl; auto; try lia.
  destruct (Z.ltb_spec s2 s1), (Z.ltb_spec s1 s2), (Z.eqb_spec s1 s2), (Z.eqb_spec s2 s1);
    simpl; auto; try lia.
  apply String.leb_total.
Qed.

Lemma weight_leb_trans x y z :
  weight_leb x y = true -> weight_leb y z = true -> weight_leb x z = true.
Proof.
  destruct x as [[p1 s1] k1], y as [[p2 s2] k2], z as [[p3 s3] k3]. unfold weight_leb.
  destruct (Z.ltb_spec p2 p1), (Z.ltb_spec p3 p2), (Z.ltb_spec p3 p1),
    (Z.eqb_spec p1 p2), (Z.eqb_spec p2 p3), (Z.eqb_spec p1 p3);
    simpl; auto; try lia; try discriminate.
  destruct (Z.ltb_spec s2 s1), (Z.ltb_spec s3 s2), (Z.ltb_spec s3 s1),
    (Z.eqb_spec s1 s2), (Z.eqb_spec s2 s3), (Z.eqb_spec s1 s3);
    simpl; auto; try lia; try discriminate.
  apply string_leb_trans.
Qed.

Lemma weight_leb_antisym x y :
  weight_leb x y = true -> weight_leb y x = true -> x = y.
Proof.
  destruct x as [[p1 s1] k1], y as [[p2 s2] k2]. unfold weight_leb.
  destruct (Z.ltb_spec p2 p1), (Z.ltb_spec p1 p2), (Z.eqb_spec p1 p2), (Z.eqb_spec p2 p1);
    simpl; try lia; try discriminate.
  destruct (Z.ltb_spec s2 s1), (Z.ltb_spec s1 s2), (Z.eqb_spec s1 s2), (Z.eqb_spec s2 s1);
    simpl; try lia; try discriminate.
  intros Hk1 Hk2. subst. f_equal. by apply String.leb_antisym.
Qed.

Lemma sorts_before_refl a : sorts_before a a = true.
Proof. unfold sorts_before. by destruct (weight_leb_total (routeWeight a) (routeWeight a)). Qed.

(** The three ways in which [a] is strictly ahead of [b]. *)
Lemma strictly_ahead a b :
  precedence (attrs b) < precedence (attrs a) \/
  (precedence (attrs a) = precedence (attrs b) /\ specificity b < specificity a) \/
  (precedence (attrs a) = precedence (attrs b) /\ specificity a = specificity b /\
   String.ltb (rkey (attrs a)) (rkey (attrs b)) = true) ->
  sorts_before b a = false.
Proof.
  unfold sorts_before, routeWeight, weight_leb.
  intros [H|[[H1 H2]|(H1 & H2 & H3)]];
    destruct (Z.ltb_spec (precedence (attrs a)) (precedence (attrs b))),
      (Z.eqb_spec (precedence (attrs b)) (precedence (attrs a))); simpl; try lia;
    try reflexivity;
    destruct (Z.ltb_spec (specificity a) (specificity b)),
      (Z.eqb_spec (specificity b) (specificity a)); simpl; try lia;
    try reflexivity.
  by apply string_ltb_not_leb.
Qed.

(** ** Ordering a group *)

Lemma insert_member_perm a l : insert_member a l ≡ₚ a :: l.
Proof.
  induction l as [|b l IH]; simpl; [done|].
  destruct (sorts_before a b); [done|].
  rewrite IH. apply Permutation_swap.
Qed.

Lemma order_members_perm l : order_members l ≡ₚ l.
Proof.
  induction l as [|a l IH]; simpl; [done|].
  by rewrite insert_member_perm, IH.
Qed.

Lemma insert_member_sorted a l :
  StronglySorted (fun x y => sorts_before x y = true) l ->
  StronglySorted (fun x y => sorts_before x y = true) (insert_member a l).
Proof.
  induction 1 as [|b l Hl IH Hb]; simpl.
  - repeat constructor.
  - destruct (sorts_before a b) eqn:E.
    + constructor; [by constructor|]. constructor; [done|].
      eapply Forall_impl; [exact Hb|]. intros c Hc. simpl in Hc.
      unfold sorts_before in *. by eapply weight_leb_trans.
    + constructor; [done|].
      rewrite insert_member_perm. constructor; [|done].
      destruct (weight_leb_total (routeWeight a) (routeWeight b)) as [H|H]; [|done].
      unfold sorts_before in E. congruence.
Qed.

Lemma order_members_sorted l :
  StronglySorted (fun x y => sorts_before x y = true) (order_members l).
Proof.
  induction l as [|a l IH]; simpl; [constructor|]. by apply insert_member_sorted.
Qed.

Lemma sorted_lookup {A} (R : A -> A -> Prop) (l : list A) i j a b :
  StronglySorted R l -> (i < j)%nat -> l !! i = Some a -> l !! j = Some b -> R a b.
Proof.
  intros Hs. revert i j. induction Hs as [|x l Hl IH Hx]; intros i j Hij Hi Hj.
  - by rewrite lookup_nil in Hi.
  - destruct j as [|j]; [lia|]. destruct i as [|i]; simpl in *.
    + injection Hi as <-. rewrite Forall_forall in Hx. apply Hx.
      eapply list_elem_of_lookup_2, Hj.
    + apply (IH i j); [lia|done..].
Qed.

Lemma sorted_perm_eq {A} (R : A -> A -> Prop) (l1 l2 : list A) :
  (forall a b, a ∈ l1 -> b ∈ l1 -> R a b -> R b a -> a = b) ->
  StronglySorted R l1 -> StronglySorted R l2 -> l1 ≡ₚ l2 -> l1 = l2.
Proof.
  intros Hanti Hs1. revert l2. induction Hs1 as [|a t1 Ht1 IH Ha]; intros l2 Hs2 Hp.
  - by apply Permutation_nil_l in Hp.
  - destruct l2 as [|b t2]; [by apply Permutation_nil_r in Hp|].
    apply StronglySorted_inv in Hs2 as [Ht2 Hb].
    assert (a = b) as <-.
    { assert (Ha2 : a ∈ b :: t2) by (rewrite <- Hp; constructor).
      assert (Hb1 : b ∈ a :: t1) by (rewrite Hp; constructor).
      apply elem_of_cons in Ha2 as [|Ha2]; [done|].
      apply elem_of_cons in Hb1 as [|Hb1]; [done|].
      rewrite Forall_forall in Ha, Hb.
      apply Hanti; [constructor | by constructor | |].
      - by apply Ha.
      - by apply Hb. }
    f_equal. apply IH; [|done|by apply Permutation_cons_inv in Hp].
    intros x y Hx Hy. apply Hanti; by constructor.
Qed.

Lemma NoDup_map_inj {A B} (f : A -> B) (l : list A) a b :
  NoDup (map f l) -> a ∈ l -> b ∈ l -> f a = f b -> a = b.
Proof.
  induction l as [|x l IH]; simpl; intros Hnd Ha Hb E.
  - by apply elem_of_nil in Ha.
  - apply NoDup_cons in Hnd as [Hx Hnd].
    apply elem_of_cons in Ha as [->|Ha]; apply elem_of_cons in Hb as [->|Hb]; auto.
    + exfalso. apply Hx. rewrite E. apply (list_elem_of_fmap_2 f). done.
    + exfalso. apply Hx. rewrite <- E. apply (list_elem_of_fmap_2 f). done.
Qed.

Example order_members_example :
  map (fun m => rkey (attrs m))
    (order_members [example_mapping "b" "/foo/" 0; example_mapping "a" "/foo/" 0;
                    example_mapping "c" "/foo/bar/" 0; example_mapping "d" "/" 5])
  = ["d"; "c"; "a"; "b"].
Proof. reflexivity. Qed.

(** C8. Sorting a group by route weight orders it by a total order: the
    result is a rearrangement of the members in which a member of higher
    precedence stands before one of lower precedence, among equal
    precedences the longer prefix stands first, and among equal precedence
    and specificity the lexicographically smaller resource key stands first.
    The comparison is total, transitive and ties only on equal route
    weights, so with distinct resource keys the result does not depend on
    the order the members came in. *)
Theorem order_members_total_order (l : list IRBaseMapping) :
  order_members l ≡ₚ l /\
  (forall i j a b,
     order_members l !! i = Some a -> order_members l !! j = Some b ->
     precedence (attrs b) < precedence (attrs a) \/
     (precedence (attrs a) = precedence (attrs b) /\ specificity b < specificity a) \/
     (precedence (attrs a) = precedence (attrs b) /\ specificity a = specificity b /\
      String.ltb (rkey (attrs a)) (rkey (attrs b)) = true) ->
     (i < j)%nat) /\
  (forall a b, sorts_before a b = true \/ sorts_before b a = true) /\
  (forall a b c, sorts_before a b = true -> sorts_before b c = true ->
                 sorts_before a c = true) /\
  (forall a b, sorts_before a b = true -> sorts_before b a = true ->
               routeWeight a = routeWeight b) /\
  (forall l', l' ≡ₚ l -> NoDup (map (fun m => rkey (attrs m)) l) ->
              order_members l' = order_members l).
Proof.
  split; [apply order_members_perm|]. split; [|split; [|split; [|split]]].
  - intros i j a b Hi Hj Hab. apply strictly_ahead in Hab.
    destruct (Nat.lt_trichotomy i j) as [Hlt|[->|Hgt]]; [done| |].
    + rewrite Hi in Hj. injection Hj as <-. by rewrite sorts_before_refl in Hab.
    + pose proof (sorted_lookup _ _ j i b a (order_members_sorted l) Hgt Hj Hi) as H.
      simpl in H. congruence.
  - intros a b. apply weight_leb_total.
  - intros a b c. apply weight_leb_trans.
  - intros a b. apply weight_leb_antisym.
  - intros l' Hp Hnd.
    apply (sorted_perm_eq (fun x y => sorts_before x y = true));
      [|apply order_members_sorted..|by rewrite !order_members_perm].
    intros a b Ha Hb Hab Hba.
    rewrite order_members_perm, Hp in Ha, Hb.
    apply (NoDup_map_inj (fun m => rkey (attrs m)) l); [done..|].
    pose proof (weight_leb_antisym _ _ Hab Hba) as E. unfold routeWeight in E. congruence.
Qed.

(** ** Grouping *)

Lemma add_to_groups_members m gs :
  concat (map members (add_to_groups m gs)) ≡ₚ m :: concat (map members gs).
Proof.
  induction gs as [|g gs IH]; simpl; [done|].
  destruct (decide (groupId g = group_id m)); simpl.
  - by rewrite (Permutation_app_comm (members g) [m]).
  - rewrite IH. by rewrite <- Permutation_middle.
Qed.

Lemma add_to_groups_ids m gs :
  map groupId (add_to_groups m gs) =
  if bool_decide (group_id m ∈ map groupId gs) then map groupId gs
  else (map groupId gs ++ [group_id m])%list.
Proof.
  induction gs as [|g gs IH]; simpl; [done|].
  destruct (decide (groupId g = group_id m)) as [E|N]; simpl.
  - rewrite bool_decide_eq_true_2; [done|]. rewrite E. constructor.
  - rewrite IH. destruct (decide (group_id m ∈ map groupId gs)) as [Hin|Hnin].
    + rewrite !bool_decide_eq_true_2; [done| by constructor | done].
    + rewrite !bool_decide_eq_false_2; [done| | done].
      intros [?|?]%elem_of_cons; congruence.
Qed.

Lemma add_to_groups_well_grouped m gs :
  Forall well_grouped gs -> Forall well_grouped (add_to_groups m gs).
Proof.
  induction 1 as [|g gs [Hne Hg] Hgs IH]; simpl.
  - constructor; [|constructor]. split; simpl; [done|].
    constructor; [done|constructor].
  - destruct (decide (groupId g = group_id m)) as [E|N].
    + constructor; [|done]. split; simpl.
      * by destruct (members g).
      * apply Forall_app. split; [done|]. constructor; [done|constructor].
    + constructor; [by split | done].
Qed.

Lemma group_mappings_from ms gs :
  let gs' := fold_left (fun gs m => add_to_groups m gs) ms gs in
  concat (map members gs') ≡ₚ (concat (map members gs) ++ ms)%list /\
  (NoDup (map groupId gs) -> NoDup (map groupId gs')) /\
  (Forall well_grouped gs -> Forall well_grouped gs').
Proof.
  revert gs. induction ms as [|m ms IH]; intros gs; simpl.
  - by rewrite app_nil_r.
  - destruct (IH (add_to_groups m gs)) as (P & N & W). split; [|split].
    + rewrite P, add_to_groups_members. by rewrite <- Permutation_middle.
    + intros Hnd. apply N. rewrite add_to_groups_ids.
      destruct (decide (group_id m ∈ map groupId gs)) as [Hin|Hnin].
      * by rewrite bool_decide_eq_true_2.
      * rewrite bool_decide_eq_false_2 by done.
        apply NoDup_app. split; [done|]. split; [|apply NoDup_singleton].
        intros x Hx ->%list_elem_of_singleton. done.
    + intros Hw. by apply W, add_to_groups_well_grouped.
Qed.

Lemma setup_each_attrs C ms i ms' i' :
  setup_each C ms i = (Ok ms', i') -> map attrs ms' = map attrs ms.
Proof.
  revert i ms' i'. induction ms as [|m ms IH]; intros i ms' i'; simpl.
  - by intros [= <- <-].
  - pose proof (setup_keeps_attrs C {| self := m; ir := i |}) as Ha.
    destruct (setup C _) as [[b|e] w]; [|discriminate].
    destruct (setup_each C ms (ir w)) as [[ms1|e] i1] eqn:E; [|discriminate].
    intros [= <- <-]. simpl. f_equal; [done|]. by eapply IH.
Qed.

Example example_groups_members :
  map (fun g => (groupId g, map (fun m => rkey (attrs m)) (members g))) example_groups
  = [(Some "Mapping|x.com|/foo/", ["m1"; "m3"]); (Some "Mapping|x.com|/bar/", ["m2"])].
Proof. reflexivity. Qed.

(** C9. On a pass in which every Mapping is set up successfully, the
    groups form a partition of the Mappings of the pass: the members of all
    groups together are exactly the Mappings that were set up (each as often
    as it was given), these are the input Mappings with their declared
    attributes unchanged, no two groups share an id, every group has a
    member and holds only Mappings with its id, and so every Mapping is in
    one group and in no other. *)
Theorem grouping_is_partition C ms i gs i' :
  collect_and_group C ms i = (Ok gs, i') ->
  exists ms',
    setup_each C ms i = (Ok ms', i') /\
    map attrs ms' = map attrs ms /\
    concat (map members gs) ≡ₚ ms' /\
    NoDup (map groupId gs) /\
    Forall well_grouped gs /\
    (forall m, m ∈ ms' ->
       exists g, g ∈ gs /\ m ∈ members g /\
                 forall g', g' ∈ gs -> m ∈ members g' -> g' = g).
Proof.
  unfold collect_and_group.
  destruct (setup_each C ms i) as [[ms'|e] i1] eqn:E; [|discriminate].
  intros [= <- <-]. exists ms'.
  destruct (group_mappings_from ms' []) as (P & N & W). simpl in P.
  fold (group_mappings ms') in P, N, W.
  specialize (N (NoDup_nil_2)). specialize (W (Forall_nil_2 _)).
  split; [done|]. split; [by eapply setup_each_attrs|].
  split; [done|]. split; [done|]. split; [done|].
  intros m Hm. rewrite <- P in Hm.
  apply list_elem_of_In, in_concat in Hm as (l & Hl & Hml).
  apply in_map_iff in Hl as (g & <- & Hg).
  apply list_elem_of_In in Hg, Hml.
  exists g. split; [done|]. split; [done|].
  intros g' Hg' Hm'.
  apply (NoDup_map_inj groupId (group_mappings ms')); [done..|].
  rewrite Forall_forall in W.
  destruct (W g Hg) as [_ Fg], (W g' Hg') as [_ Fg'].
  rewrite Forall_forall in Fg, Fg'.
  by rewrite <- (Fg m Hml), <- (Fg' m Hm').
Qed.

Lemma grouping_is_partition_witness :
  exists ms',
    setup_each SpecMapping_class example_inputs example_ir =
    (Ok ms', snd (collect_and_group SpecMapping_class example_inputs example_ir)) /\
    map attrs ms' = map attrs example_inputs /\
    concat (map members example_groups) ≡ₚ ms' /\
    NoDup (map groupId example_groups) /\
    Forall well_grouped example_groups /\
    (forall m, m ∈ ms' ->
       exists g, g ∈ example_groups /\ m ∈ members g /\
                 forall g', g' ∈ example_groups -> m ∈ members g' -> g' = g).
Proof.
  apply (grouping_is_partition SpecMapping_class example_inputs example_ir).
  reflexivity.
Defined.

(** ** Canary weights *)

Lemma total_app a b : total (a ++ b) = total a + total b.
Proof. induction a as [|x a IH]; simpl; [reflexivity|]. rewrite IH. lia. Qed.

Lemma total_shares q r k :
  0 <= r ->
  total (map (fun i : nat => q + (if (Z.of_nat i <? r)%Z then 1 else 0)) (seq 0 k)) =
  Z.of_nat k * q + Z.min (Z.of_nat k) r.
Proof.
  intros Hr. induction k as [|k IH].
  - simpl. lia.
  - rewrite seq_S, map_app, total_app, IH. simpl.
    destruct (Z.ltb_spec (Z.of_nat k) r); lia.
Qed.

Lemma even_split_length t n : length (even_split t n) = n.
Proof. unfold even_split. by rewrite length_map, length_seq. Qed.

Lemma even_split_total t n : (0 < n)%nat -> 0 <= t -> total (even_split t n) = t.
Proof.
  intros Hn Ht. unfold even_split, even_share.
  rewrite total_shares by (apply Z.mod_pos_bound; lia).
  pose proof (Z.mod_pos_bound t (Z.of_nat n) ltac:(lia)).
  pose proof (Z.div_mod t (Z.of_nat n) ltac:(lia)). lia.
Qed.

Lemma even_split_lookup t n i :
  (i < n)%nat -> even_split t n !! i = Some (even_share t n i).
Proof.
  intros Hi. unfold even_split.
  change (map (even_share t n) (seq 0 n)) with (even_share t n <$> seq 0 n).
  rewrite list_lookup_fmap, lookup_seq_lt by done. reflexivity.
Qed.


Lemma even_share_antitone t n i j :
  (i <= j)%nat -> even_share t n j <= even_share t n i <= even_share t n j + 1.
Proof.
  intros Hij. unfold even_share.
  destruct (Z.ltb_spec (Z.of_nat i) (t mod Z.of_nat n)),
    (Z.ltb_spec (Z.of_nat j) (t mod Z.of_nat n)); lia.
Qed.









Lemma fill_undeclared_only shares ws :
  Forall (fun w => w = None) ws -> length shares = length ws -> fill shares ws = shares.
Proof.
  intros H. revert shares. induction H as [|w ws -> Hws IH]; intros shares; simpl.
  - by destruct shares.
  - destruct shares as [|s shares]; [discriminate|]. intros [= Hl]. by rewrite IH.
Qed.

Lemma undeclared_only ws :
  Forall (fun w => w = None) ws -> undeclared ws = length ws /\ declared_total ws = 0.
Proof. induction 1 as [|w ws -> Hws [IH1 IH2]]; simpl; [done|]. by rewrite IH1. Qed.




Lemma zip_set_weight zs ms :
  length zs = length ms ->
  map (fun m => weight (attrs m)) (zip_with set_weight zs ms) = map Some zs.
Proof.
  revert ms. induction zs as [|z zs IH]; intros [|m ms]; simpl; try done.
  intros [= H]. by rewrite IH.
Qed.

Lemma forallb_perm {A} (p : A -> bool) l l' : l ≡ₚ l' -> forallb p l = forallb p l'.
Proof.
  induction 1 as [|x l l' _ IH|x y l|l l' l'' _ IH1 _ IH2]; simpl.
  - done.
  - by rewrite IH.
  - by destruct (p x), (p y).
  - congruence.
Qed.

Lemma balance_run supports rescale g :
  eligible supports g = true ->
  balance supports rescale g =
  {| groupId := groupId g;
     members := zip_with set_weight (fst (balance_weights rescale (member_weights g)))
                  (members g);
     totalWeight := Some (total (fst (balance_weights rescale (member_weights g))));
     warnings := warnings g ++ snd (balance_weights rescale (member_weights g)) |}.
Proof.
  intros He. unfold balance. rewrite He.
  by destruct (balance_weights rescale (member_weights g)).
Qed.

Lemma balance_weights_undeclared rescale ws :
  Forall (fun w => w = None) ws -> ws <> [] ->
  balance_weights rescale ws = (even_split 100 (length ws), []).
Proof.
  intros Hws Hne. destruct (undeclared_only ws Hws) as [Hu Hd].
  unfold balance_weights. rewrite Hu, Hd.
  destruct ws as [|w ws]; [done|]. simpl Nat.eqb. cbv iota.
  destruct (Z.leb_spec 100 0); [lia|].
  rewrite Z.sub_0_r, fill_undeclared_only; [done..|]. by rewrite even_split_length.
Qed.

Example even_split_example : even_split 100 3 = [34; 33; 33].
Proof. reflexivity. Qed.

(** C7. In an eligible group none of whose members declares a weight, the
    members, taken in route-weight order, share 100 evenly: the [i]-th gets
    the quotient of 100 by the member count, plus one when [i] is below the
    remainder.  The shares sum to 100, never increase along the order and
    differ by at most one; three members get 34, 33 and 33. *)
Theorem balance_even_split supports rescale g :
  eligible supports g = true ->
  members g <> [] ->
  Forall (fun m => weight (attrs m) = None) (members g) ->
  members (balance supports rescale (order_group g)) =
    zip_with set_weight (even_split 100 (length (members g))) (order_members (members g)) /\
  member_weights (balance supports rescale (order_group g)) =
    map Some (even_split 100 (length (members g))) /\
  totalWeight (balance supports rescale (order_group g)) = Some 100 /\
  (forall i : nat, (i < length (members g))%nat ->
     even_split 100 (length (members g)) !! i =
     Some (100 / Z.of_nat (length (members g)) +
           (if (Z.of_nat i <? 100 mod Z.of_nat (length (members g)))%Z then 1 else 0))) /\
  total (even_split 100 (length (members g))) = 100 /\
  (forall (i j : nat) x y, (i <= j)%nat ->
     even_split 100 (length (members g)) !! i = Some x ->
     even_split 100 (length (members g)) !! j = Some y ->
     y <= x <= y + 1) /\
  even_split 100 3 = [34; 33; 33].
Proof.
  intros He Hne Hw.
  assert (Hn : (0 < length (members g))%nat) by (destruct (members g); [done | simpl; lia]).
  assert (Hlen : length (order_members (members g)) = length (members g))
    by (by rewrite order_members_perm).
  assert (He' : eligible supports (order_group g) = true).
  { unfold eligible in *. simpl. by rewrite (forallb_perm _ _ _ (order_members_perm _)). }
  assert (Hbw : balance_weights rescale (member_weights (order_group g)) =
                (even_split 100 (length (members g)), [])).
  { rewrite <- Hlen, <- (length_map (fun m => weight (attrs m))).
    apply balance_weights_undeclared.
    - unfold member_weights. simpl. apply Forall_fmap.
      by rewrite order_members_perm.
    - unfold member_weights. simpl. intros E. apply (f_equal length) in E.
      rewrite length_map, Hlen in E. simpl in E. lia. }
  rewrite (balance_run _ _ _ He'), Hbw. unfold member_weights. simpl.
  split; [done|]. split; [|split; [|split; [|split; [|split]]]].
  - apply zip_set_weight. by rewrite even_split_length.
  - by rewrite even_split_total by lia.
  - intros i Hi. by rewrite even_split_lookup.
  - apply even_split_total; lia.
  - intros i j x y Hij Hi Hj.
    assert (Hj' : (j < length (members g))%nat).
    { apply lookup_lt_Some in Hj. by rewrite even_split_length in Hj. }
    rewrite even_split_lookup in Hi, Hj by lia.
    injection Hi as <-. injection Hj as <-. by apply even_share_antitone.
  - reflexivity.
Qed.

Lemma balance_even_split_witness :
  member_weights
    (balance (fun _ => true) (fun l => l) (order_group (example_group [None; None; None])))
  = [Some 34; Some 33; Some 33].
Proof.
  exact (proj1 (proj2 (balance_even_split (fun _ => true) (fun l => l)
                         (example_group [None; None; None]) eq_refl
                         ltac:(discriminate) ltac:(repeat constructor)))).
Defined.


Example balance_partial_example :
  member_weights (balance (fun _ => true) (fun l => l) (example_group [Some 70; None]))
  = [Some 70; Some 30].
Proof. reflexivity. Qed.







(** The rescaling of a fully declared group. *)




Lemma largest_ge l x : x ∈ l -> x <= largest l.
Proof.
  induction l as [|y l IH]; simpl; [by intros ?%elem_of_nil|].
  intros [->|Hx]%elem_of_cons; [lia|]. specialize (IH Hx). lia.
Qed.











Example balance_rescale_example :
  member_weights (balance (fun _ => true) proportional_rescale
                    (example_group [Some 80; Some 90]))
  = [Some 47; Some 53].
Proof. reflexivity. Qed.



(** * Further properties of [irbasemapping.py] *)

(** ** What [match_tls_context] returns and does *)

Lemma find_app_some {A} (p : A -> bool) l l' c :
  List.find p l = Some c -> List.find p (l ++ l') = Some c.
Proof.
  induction l as [|x l IH]; simpl; [discriminate|].
  destruct (p x); [done | apply IH].
Qed.

Lemma find_perm_unique {A} (p : A -> bool) l l' :
  l ≡ₚ l' ->
  (forall x y, x ∈ l -> y ∈ l -> p x = true -> p y = true -> x = y) ->
  List.find p l = List.find p l'.
Proof.
  intros Hp Hu.
  destruct (List.find p l) as [c|] eqn:E; destruct (List.find p l') as [c'|] eqn:E'; try done.
  - apply List.find_some in E as [Hc Hpc], E' as [Hc' Hpc'].
    apply list_elem_of_In in Hc, Hc'. rewrite <- Hp in Hc'. f_equal. by apply Hu.
  - apply List.find_some in E as [Hc Hpc]. apply list_elem_of_In in Hc. rewrite Hp in Hc.
    apply list_elem_of_In in Hc. pose proof (List.find_none _ _ E' _ Hc). congruence.
  - apply List.find_some in E' as [Hc Hpc]. apply list_elem_of_In in Hc. rewrite <- Hp in Hc.
    apply list_elem_of_In in Hc. pose proof (List.find_none _ _ E _ Hc). congruence.
Qed.

(** A context that [match_tls_context] returns is one of the sequence and
    has the host among its hosts, and [sni] is [True] afterwards; when it
    returns [None], no context of the sequence has the host. *)
Theorem match_tls_context_result host w :
  (forall c, fst (match_tls_context host w) = Ok (Some c) ->
     c ∈ get_tls_contexts (ir w) /\ host ∈ context_hosts c /\
     sni (self (snd (match_tls_context host w))) = Some true) /\
  (fst (match_tls_context host w) = Ok None ->
   forall c, c ∈ get_tls_contexts (ir w) -> host ∉ context_hosts c).
Proof.
  rewrite match_tls_context_run.
  destruct (List.find _ _) as [c|] eqn:E; simpl.
  - apply List.find_some in E as [Hc Hs].
    apply list_elem_of_In in Hc. apply bool_decide_eq_true_1 in Hs.
    split; [|discriminate]. by intros c' [= <-].
  - split; [done|].
    intros _ c Hc. apply list_elem_of_In in Hc.
    pose proof (List.find_none _ _ E c Hc) as Hs.
    by apply bool_decide_eq_false_1 in Hs.
Qed.

(** A call logs at most one record: on a match one INFO record with the
    host and the [name] entry of the returned context ([None] when it has
    none), and nothing otherwise.  The TLS contexts of the IR are never
    changed. *)
Theorem match_tls_context_log host w :
  tls_contexts (ir (snd (match_tls_context host w))) = tls_contexts (ir w) /\
  (forall c, fst (match_tls_context host w) = Ok (Some c) ->
     logger (ir (snd (match_tls_context host w))) =
     (logger (ir w) ++
        [{| level := INFO; fmt := "Matched host {} with TLSContext {}";
            args := [ArgStr host;
                     ArgValue (match c !! "name" with Some v => v | None => VNone end)] |}])%list) /\
  (fst (match_tls_context host w) = Ok None ->
   logger (ir (snd (match_tls_context host w))) = logger (ir w)).
Proof.
  rewrite match_tls_context_run.
  destruct (List.find _ _) as [c|]; simpl; repeat split; try done.
  by intros c' [= <-].
Qed.

(** [sni] is never cleared: once a call has matched a context, a later call
    for any host, matching or not, leaves [sni] at [True]. *)
Theorem match_tls_context_sni_sticky host1 host2 w c :
  fst (match_tls_context host1 w) = Ok (Some c) ->
  sni (self (snd (match_tls_context host2 (snd (match_tls_context host1 w))))) = Some true.
Proof.
  rewrite (match_tls_context_run host1 w).
  destruct (List.find _ _) as [c1|]; [|discriminate]. intros _. simpl.
  rewrite match_tls_context_run. by destruct (List.find _ _).
Qed.

Lemma match_tls_context_sni_sticky_witness :
  fst (match_tls_context "y.com"
         (snd (match_tls_context "x.com" (example_world [context_A; context_B])))) = Ok None /\
  sni (self (snd (match_tls_context "y.com"
         (snd (match_tls_context "x.com" (example_world [context_A; context_B])))))) = Some true.
Proof.
  split; [vm_compute; reflexivity|].
  apply (match_tls_context_sni_sticky "x.com" "y.com"
           (example_world [context_A; context_B]) context_A).
  vm_compute. reflexivity.
Defined.

(** Asking again for the same host gives the same answer and leaves the
    Mapping as the first call left it. *)
Theorem match_tls_context_repeat host w :
  fst (match_tls_context host (snd (match_tls_context host w))) =
  fst (match_tls_context host w) /\
  self (snd (match_tls_context host (snd (match_tls_context host w)))) =
  self (snd (match_tls_context host w)).
Proof.
  rewrite (match_tls_context_run host w).
  destruct (List.find _ _) as [c|] eqn:E; simpl.
  - rewrite match_tls_context_run. unfold get_tls_contexts in *. simpl. by rewrite E.
  - rewrite match_tls_context_run. by rewrite E.
Qed.

(** A [hosts] entry that is a bare string is scanned one character at a
    time: the context has a host among its hosts exactly when the host is a
    single character of that string.  A host that is not one character long
    is therefore never matched by such a context, which is passed over. *)
Theorem match_tls_context_bare_string_hosts host s (pre post : list TLSContext) c w :
  c !! "hosts" = Some (VStr s) ->
  get_tls_contexts (ir w) = (pre ++ c :: post)%list ->
  (host ∈ context_hosts c <->
   exists a, host = String a EmptyString /\ In a (list_ascii_of_string s)) /\
  (String.length host <> 1%nat ->
   match_tls_context host w = match_contexts host (pre ++ post) w).
Proof.
  intros Hc Hcs.
  assert (Hiff : host ∈ context_hosts c <->
                 exists a, host = String a EmptyString /\ In a (list_ascii_of_string s)).
  { unfold context_hosts. rewrite Hc. rewrite list_elem_of_In, in_map_iff.
    split; intros (a & Ha & Hin); exists a; split; congruence. }
  split; [done|]. intros Hlen.
  unfold match_tls_context. rewrite !match_contexts_spec, Hcs, find_skip; [done|].
  apply bool_decide_eq_false_2. rewrite Hiff. intros (a & -> & _). by apply Hlen.
Qed.

Lemma match_tls_context_bare_string_hosts_witness :
  ("x.com" ∈ context_hosts (<["hosts" := VStr "x.com"]> ∅) <->
   exists a, "x.com" = String a EmptyString /\ In a (list_ascii_of_string "x.com")) /\
  (String.length "x.com" <> 1%nat ->
   match_tls_context "x.com" (example_world [<["hosts" := VStr "x.com"]> ∅]) =
   match_contexts "x.com" [] (example_world [<["hosts" := VStr "x.com"]> ∅])).
Proof.
  apply (match_tls_context_bare_string_hosts "x.com" "x.com" [] []
           (<["hosts" := VStr "x.com"]> ∅)
           (example_world [<["hosts" := VStr "x.com"]> ∅])).
  - vm_compute. reflexivity.
  - reflexivity.
Defined.

(** When at most one context of the sequence has the host, the answer and
    the Mapping do not depend on the order of the contexts. *)
Theorem match_tls_context_order_independent host w w' :
  self w = self w' ->
  get_tls_contexts (ir w) ≡ₚ get_tls_contexts (ir w') ->
  (forall c1 c2, c1 ∈ get_tls_contexts (ir w) -> c2 ∈ get_tls_contexts (ir w) ->
                 host ∈ context_hosts c1 -> host ∈ context_hosts c2 -> c1 = c2) ->
  fst (match_tls_context host w) = fst (match_tls_context host w') /\
  self (snd (match_tls_context host w)) = self (snd (match_tls_context host w')).
Proof.
  intros Hs Hp Hu. rewrite !match_tls_context_run.
  rewrite (find_perm_unique (serves host) _ _ Hp).
  - destruct (List.find _ _); simpl; by rewrite Hs.
  - intros x y Hx Hy Px Py. apply Hu; [done..| |]; by eapply bool_decide_eq_true_1.
Qed.

Lemma match_tls_context_order_independent_witness :
  fst (match_tls_context "x.com" (example_world [context_A; context_hostless])) =
  fst (match_tls_context "x.com" (example_world [context_hostless; context_A])) /\
  self (snd (match_tls_context "x.com" (example_world [context_A; context_hostless]))) =
  self (snd (match_tls_context "x.com" (example_world [context_hostless; context_A]))).
Proof.
  apply (match_tls_context_order_independent "x.com"
           (example_world [context_A; context_hostless])
           (example_world [context_hostless; context_A])).
  - reflexivity.
  - apply Permutation_swap.
  - intros c1 c2 H1 H2 S1 S2. simpl in H1, H2.
    apply list_elem_of_In in H1, H2. simpl in H1, H2.
    destruct H1 as [<-|[<-|[]]], H2 as [<-|[<-|[]]]; try reflexivity.
    + exfalso. revert S2. apply (bool_decide_eq_false_1 (_ ∈ _)). vm_compute. reflexivity.
    + exfalso. revert S1. apply (bool_decide_eq_false_1 (_ ∈ _)). vm_compute. reflexivity.
Defined.

(** Contexts added at the end of the sequence never change a binding that
    exists: the same context is returned. *)
Theorem match_tls_context_extend host w w' more c :
  get_tls_contexts (ir w') = (get_tls_contexts (ir w) ++ more)%list ->
  fst (match_tls_context host w) = Ok (Some c) ->
  fst (match_tls_context host w') = Ok (Some c).
Proof.
  intros Hcs. rewrite !match_tls_context_run, Hcs.
  destruct (List.find (serves host) (get_tls_contexts (ir w))) as [c1|] eqn:E; [|discriminate].
  intros [= <-]. by rewrite (find_app_some _ _ _ _ E).
Qed.

Lemma match_tls_context_extend_witness :
  fst (match_tls_context "x.com" (example_world [context_hostless; context_A; context_B]))
  = Ok (Some context_A).
Proof.
  apply (match_tls_context_extend "x.com" (example_world [context_hostless; context_A])
           (example_world [context_hostless; context_A; context_B]) [context_B] context_A).
  - reflexivity.
  - vm_compute. reflexivity.
Defined.

(** ** The order in which [setup] works *)

(** [setup] assigns [group_id] before it calls [_route_weight], so a route
    weight that is computed from the group id is computed from the new one:
    for a class whose group key reads the declared attributes and whose
    route weight reads them and [group_id], two Mappings with the same
    declared attributes get the same route weight, whatever [group_id] an
    earlier run left on them. *)
Theorem setup_route_weight_reads_new_group_id C f g w1 w2 :
  group_id_impl C = Some f -> route_weight_impl C = Some g ->
  declared_only f -> attrs_and_group_id_only g ->
  attrs (self w1) = attrs (self w2) ->
  route_weight (self (snd (setup C w1))) = Some (g (set_group_id (f (self w1)) (self w1))) /\
  route_weight (self (snd (setup C w2))) = route_weight (self (snd (setup C w1))).
Proof.
  intros Hf Hg Df Dg Ha.
  destruct (setup_ok C f g w1 Hf Hg) as (_ & _ & _ & W1 & _).
  destruct (setup_ok C f g w2 Hf Hg) as (_ & _ & _ & W2 & _).
  rewrite W1, W2. split; [done|]. f_equal. apply Dg; simpl; [done|].
  f_equal. by apply Df.
Qed.

Lemma setup_route_weight_reads_new_group_id_witness :
  route_weight (self (snd (setup GroupWeighted_class (example_world [])))) =
  Some [WStr "Mapping|x.com|/foo/"; WInt 0] /\
  route_weight (self (snd (setup GroupWeighted_class stale_world))) =
  route_weight (self (snd (setup GroupWeighted_class (example_world [])))).
Proof.
  apply (setup_route_weight_reads_new_group_id GroupWeighted_class resolveGroupKey _
           (example_world []) stale_world eq_refl eq_refl resolveGroupKey_declared_only).
  - intros m m' Ha Hg. by rewrite Ha, Hg.
  - reflexivity.
Defined.

(** [setup] and [match_tls_context] can be run in either order: for a class
    whose derivations read the declared attributes only, the Mapping ends up
    with the same fields and the same context is returned. *)
Theorem setup_match_tls_context_commute C f g host w :
  group_id_impl C = Some f -> route_weight_impl C = Some g ->
  declared_only f -> declared_only g ->
  self (snd (match_tls_context host (snd (setup C w)))) =
  self (snd (setup C (snd (match_tls_context host w)))) /\
  fst (match_tls_context host (snd (setup C w))) = fst (match_tls_context host w) /\
  fst (setup C (snd (match_tls_context host w))) = Ok true.
Proof.
  intros Hf Hg Df Dg.
  rewrite !match_tls_context_run, !setup_run, Hf, Hg. simpl.
  unfold get_tls_contexts. simpl.
  destruct (List.find (serves host) (tls_contexts (ir w))) as [c|] eqn:E; simpl.
  - split; [|done].
    rewrite (Df (set_sni true (self w)) (self w)) by reflexivity.
    rewrite (Dg (set_group_id (f (self w)) (set_sni true (self w)))
                (set_group_id (f (self w)) (self w))) by reflexivity.
    reflexivity.
  - done.
Qed.

Lemma setup_match_tls_context_commute_witness :
  self (snd (match_tls_context "x.com"
               (snd (setup SpecMapping_class (example_world [context_A; context_B]))))) =
  self (snd (setup SpecMapping_class
               (snd (match_tls_context "x.com" (example_world [context_A; context_B]))))) /\
  fst (match_tls_context "x.com"
         (snd (setup SpecMapping_class (example_world [context_A; context_B])))) =
  fst (match_tls_context "x.com" (example_world [context_A; context_B])) /\
  fst (setup SpecMapping_class
         (snd (match_tls_context "x.com" (example_world [context_A; context_B])))) = Ok true.
Proof.
  apply (setup_match_tls_context_commute SpecMapping_class resolveGroupKey routeWeight_list
           "x.com" (example_world [context_A; context_B]) eq_refl eq_refl
           resolveGroupKey_declared_only routeWeight_list_declared_only).
Defined.

(** * Properties of [tests/abstract_tests.py] *)

(** ** Test indexes *)

Lemma index_run t O :
  AbstractTests.index t O =
  match AbstractTests._index t with
  | None => (O, AbstractTests.set_index O t, O + 1)
  | Some i => (i, t, O)
  end.
Proof. reflexivity. Qed.

(** Reading [index] a second time returns the same index and changes
    neither the test nor the class counter; the first read advances the
    counter by at most one. *)
Theorem index_stable t O i t1 O1 :
  AbstractTests.index t O = (i, t1, O1) ->
  AbstractTests.index t1 O1 = (i, t1, O1) /\ O <= O1 <= O + 1.
Proof.
  rewrite index_run. destruct (AbstractTests._index t) as [j|] eqn:E.
  - intros [= <- <- <-]. rewrite index_run, E. split; [done | lia].
  - intros [= <- <- <-]. split; [reflexivity | lia].
Qed.

Lemma index_stable_witness :
  AbstractTests.index (AbstractTests.set_index 7 AbstractTests.example_test) 8 =
  (7, AbstractTests.set_index 7 AbstractTests.example_test, 8) /\ 7 <= 8 <= 7 + 1.
Proof.
  apply (index_stable AbstractTests.example_test 7). reflexivity.
Defined.

(** The indexes handed out stay below the class counter, and a test that
    had no index gets one that no other test has. *)
Theorem index_allocation t t' O i t1 O1 :
  AbstractTests.allocated_below O t ->
  AbstractTests.allocated_below O t' ->
  AbstractTests.index t O = (i, t1, O1) ->
  AbstractTests.allocated_below O1 t1 /\
  AbstractTests.allocated_below O1 t' /\
  AbstractTests._index t1 = Some i /\
  (AbstractTests._index t = None -> AbstractTests._index t' <> Some i).
Proof.
  unfold AbstractTests.allocated_below. intros Ht Ht'. rewrite index_run.
  destruct (AbstractTests._index t) as [j|] eqn:E; intros [= <- <- <-].
  - repeat split; try done. intros i. rewrite E. apply Ht.
  - repeat split; simpl.
    + intros j [= <-]. lia.
    + intros j Hj. specialize (Ht' j Hj). lia.
    + intros _ Hi. specialize (Ht' _ Hi). lia.
Qed.

Lemma index_allocation_witness :
  AbstractTests.allocated_below 4 (AbstractTests.set_index 3 AbstractTests.example_test) /\
  AbstractTests.allocated_below 4 (AbstractTests.set_index 2 AbstractTests.example_test) /\
  AbstractTests._index (AbstractTests.set_index 3 AbstractTests.example_test) = Some 3 /\
  (AbstractTests._index AbstractTests.example_test = None ->
   AbstractTests._index (AbstractTests.set_index 2 AbstractTests.example_test) <> Some 3).
Proof.
  apply (index_allocation AbstractTests.example_test
           (AbstractTests.set_index 2 AbstractTests.example_test) 3).
  - intros i Hi. discriminate Hi.
  - intros i Hi. injection Hi as <-. lia.
  - reflexivity.
Defined.

(** ** URLs *)

Lemma string_length_app (s t : string) :
  String.length (s ++ t) = (String.length s + String.length t)%nat.
Proof. induction s as [|a s IH]; simpl; [done|]. by rewrite IH. Qed.

Lemma string_app_inv_tail (s1 s2 t : string) : s1 ++ t = s2 ++ t -> s1 = s2.
Proof.
  revert s2. induction s1 as [|a s1 IH]; intros [|b s2] H; simpl in H.
  - done.
  - apply (f_equal String.length) in H. simpl in H.
    rewrite !string_length_app in H. simpl in H. exfalso. lia.
  - apply (f_equal String.length) in H. simpl in H.
    rewrite !string_length_app in H. simpl in H. exfalso. lia.
  - injection H as -> H. f_equal. by apply IH.
Qed.

Lemma string_app_inv_head (s t1 t2 : string) : s ++ t1 = s ++ t2 -> t1 = t2.
Proof. induction s as [|a s IH]; simpl; [done|]. intros [= H]. by apply IH. Qed.

Lemma format_url_port_inj sch prefix (p1 p2 : Z) :
  AbstractTests.format_url sch ("localhost:" ++ pretty p1) prefix =
  AbstractTests.format_url sch ("localhost:" ++ pretty p2) prefix -> p1 = p2.
Proof.
  unfold AbstractTests.format_url. intros H.
  apply string_app_inv_head in H. simpl in H. injection H as H.
  apply string_app_inv_tail in H. by apply (inj pretty).
Qed.

(** Asking for the same URL again gives the same URL and changes nothing
    more: whatever index the first call allocated is the one used since. *)
Theorem url_stable DEV prefix sch port t O u t1 O1 :
  AbstractTests.url DEV prefix sch port t O = (u, t1, O1) ->
  AbstractTests.url DEV prefix sch port t1 O1 = (u, t1, O1).
Proof.
  unfold AbstractTests.url, AbstractTests.dev_port.
  destruct DEV; [|by intros [= <- <- <-]].
  destruct (AbstractTests.port_given port); simpl; [by intros [= <- <- <-]|].
  rewrite index_run.
  destruct (AbstractTests._index t) as [j|] eqn:E; intros [= <- <- <-].
  - by rewrite index_run, E.
  - reflexivity.
Qed.

Lemma url_stable_witness :
  AbstractTests.url true "x" None None (AbstractTests.set_index 5 AbstractTests.example_test) 6
  = ("http://localhost:8085/x", AbstractTests.set_index 5 AbstractTests.example_test, 6).
Proof.
  apply (url_stable true "x" None None AbstractTests.example_test 5). vm_compute. reflexivity.
Defined.

(** In a dev shell two tests with different indexes get different URLs for
    the same scheme and prefix when no port is given. *)
Theorem url_dev_distinct prefix sch t1 t2 O1 O2 i1 i2 :
  AbstractTests._index t1 = Some i1 ->
  AbstractTests._index t2 = Some i2 ->
  i1 <> i2 ->
  fst (fst (AbstractTests.url true prefix sch None t1 O1)) <>
  fst (fst (AbstractTests.url true prefix sch None t2 O2)).
Proof.
  intros H1 H2 Hne. unfold AbstractTests.url, AbstractTests.dev_port. simpl.
  rewrite !index_run, H1, H2. simpl.
  replace (match sch with Some s => s | None => AbstractTests.scheme t2 end)
    with (match sch with Some s => s | None => AbstractTests.scheme t1 end)
    by (by destruct sch).
  intros H. apply format_url_port_inj in H. lia.
Qed.

Lemma url_dev_distinct_witness :
  fst (fst (AbstractTests.url true "x" (Some "https") None
              (AbstractTests.set_index 0 AbstractTests.example_test) 2)) <>
  fst (fst (AbstractTests.url true "x" (Some "https") None
              (AbstractTests.set_index 1 AbstractTests.example_test) 2)).
Proof.
  apply (url_dev_distinct "x" (Some "https")
           (AbstractTests.set_index 0 AbstractTests.example_test)
           (AbstractTests.set_index 1 AbstractTests.example_test) 2 2 0 1);
    [reflexivity | reflexivity | lia].
Defined.

Example url_examples :
  fst (fst (AbstractTests.url false "p" None (Some 0) AbstractTests.example_test 0)) =
  "http://plain.default/p" /\
  fst (fst (AbstractTests.url false "p" (Some "https") (Some 8443) AbstractTests.example_test 0)) =
  "https://plain.default:8443/p" /\
  AbstractTests.url true "p" (Some "https") None AbstractTests.example_test 3 =
  ("https://localhost:8446/p", AbstractTests.set_index 3 AbstractTests.example_test, 4).
Proof. vm_compute. repeat split. Qed.

(** The two readiness URLs of a test name the same host and port.  Outside
    a dev shell that is the test's own name and nothing is allocated; in a
    dev shell it is [localhost] at 8080 plus the test's index, and the test
    and the class counter end up as one read of [index] leaves them. *)
Theorem requirements_urls DEV t O :
  exists authority,
    fst (fst (AbstractTests.requirements DEV t O)) =
    [("url", {| AbstractTests.q_url := "http://" ++ authority ++ "/ambassador/v0/check_ready";
                AbstractTests.q_headers := None |});
     ("url", {| AbstractTests.q_url := "http://" ++ authority ++ "/ambassador/v0/check_alive";
                AbstractTests.q_headers := None |})] /\
    (DEV = false ->
     authority = AbstractTests.path_fqdn t /\
     snd (fst (AbstractTests.requirements DEV t O)) = t /\
     snd (AbstractTests.requirements DEV t O) = O) /\
    (DEV = true ->
     authority = "localhost:" ++ pretty (8080 + fst (fst (AbstractTests.index t O))) /\
     snd (fst (AbstractTests.requirements DEV t O)) = snd (fst (AbstractTests.index t O)) /\
     snd (AbstractTests.requirements DEV t O) = snd (AbstractTests.index t O)).
Proof.
  unfold AbstractTests.requirements, AbstractTests.url, AbstractTests.dev_port.
  destruct DEV; simpl.
  - rewrite index_run. destruct (AbstractTests._index t) as [j|] eqn:E; simpl.
    + rewrite index_run, E. simpl. eexists. split; [reflexivity|]. by split.
    + eexists. split; [reflexivity|]. by split.
  - eexists. split; [reflexivity|]. by split.
Qed.

(** ** The environment of a test *)

Lemma init_environ_run DEV t :
  AbstractTests._environ (AbstractTests.__init__ DEV t) =
  (if AbstractTests.debug_diagd t then <["AMBASSADOR_DEBUG" := "diagd"]> else id)
    ((if AbstractTests.disable_endpoints t
      then <["AMBASSADOR_DISABLE_ENDPOINTS" := "yes"]> else id)
       ((if AbstractTests.single_namespace t
         then <["AMBASSADOR_SINGLE_NAMESPACE" := "yes"]> else id)
          (AbstractTests.envs t))).
Proof.
  unfold AbstractTests.__init__.
  destruct t as [ix aid sn de sd dd en ev sk nm fq]. simpl.
  by destruct sn, de, dd, sd, DEV.
Qed.

(** After [__init__] the environment of a test is its [envs] with the three
    switches laid over it: a switch that is on sets its variable whatever
    [envs] says, every other variable is passed through as [envs] has it,
    and [envs] itself is left as it was. *)
Theorem init_environ DEV t :
  (AbstractTests.single_namespace t = true ->
   AbstractTests._environ (AbstractTests.__init__ DEV t) !! "AMBASSADOR_SINGLE_NAMESPACE"
   = Some "yes") /\
  (AbstractTests.disable_endpoints t = true ->
   AbstractTests._environ (AbstractTests.__init__ DEV t) !! "AMBASSADOR_DISABLE_ENDPOINTS"
   = Some "yes") /\
  (AbstractTests.debug_diagd t = true ->
   AbstractTests._environ (AbstractTests.__init__ DEV t) !! "AMBASSADOR_DEBUG"
   = Some "diagd") /\
  (forall k,
     (k = "AMBASSADOR_SINGLE_NAMESPACE" -> AbstractTests.single_namespace t = false) ->
     (k = "AMBASSADOR_DISABLE_ENDPOINTS" -> AbstractTests.disable_endpoints t = false) ->
     (k = "AMBASSADOR_DEBUG" -> AbstractTests.debug_diagd t = false) ->
     AbstractTests._environ (AbstractTests.__init__ DEV t) !! k = AbstractTests.envs t !! k) /\
  AbstractTests.envs (AbstractTests.__init__ DEV t) = AbstractTests.envs t /\
  AbstractTests.skip_node (AbstractTests.__init__ DEV t) =
  (AbstractTests.skip_in_dev t && DEV) || AbstractTests.skip_node t.
Proof.
  rewrite init_environ_run.
  destruct t as [ix aid sn de sd dd en ev sk nm fq]. simpl.
  split; [|split; [|split; [|split; [|split]]]].
  - intros ->. destruct de, dd; unfold id;
      repeat (rewrite lookup_insert_eq || (rewrite lookup_insert_ne by discriminate)); done.
  - intros ->. destruct sn, dd; unfold id;
      repeat (rewrite lookup_insert_eq || (rewrite lookup_insert_ne by discriminate)); done.
  - intros ->. destruct sn, de; unfold id;
      repeat (rewrite lookup_insert_eq || (rewrite lookup_insert_ne by discriminate)); done.
  - intros k H1 H2 H3.
    destruct sn, de, dd; unfold id;
      repeat (rewrite lookup_insert_ne;
              [|intros E; subst k;
                (by specialize (H1 eq_refl)) || (by specialize (H2 eq_refl)) ||
                (by specialize (H3 eq_refl))]);
      done.
  - unfold AbstractTests.__init__. simpl. by destruct sn, de, dd, sd, DEV.
  - unfold AbstractTests.__init__. simpl. by destruct sn, de, dd, sd, DEV, sk.
Qed.

Example init_environ_example :
  AbstractTests._environ (AbstractTests.__init__ false AbstractTests.example_test)
  = <["AMBASSADOR_SINGLE_NAMESPACE" := "yes"]> (<["FOO" := "bar"]> ∅).
Proof. vm_compute. reflexivity. Qed.
